(** * mcmc_het: the two-coordinate Metropolis sampler of [1d_tests/mcmc_het.py]

    A shallow embedding of [energy_em], [prior], [do_mcmc], [gen_images]
    and [p_to_fes].

    Conventions of the embedding.
    - numpy's float64 scalars are idealised as real numbers ([R]); the only
      non-finite value the sampler can produce from in-range draws is the
      threshold [-log(0) = +inf], which is kept explicit ([ext_real]).
    - A configuration (a numpy array of shape (2,)) is a pair of reals.
    - The random source is an explicit argument: [rng i] holds the four draws
      consumed by loop iteration [i].
    - Python exceptions are explicit: a call returns [inl err] or [inr value].
    - The module's global names are an explicit environment, because
      [do_mcmc] resolves the name [p_em] in it at call time. *)

From Stdlib Require Import Strings.String.
From Stdlib Require Import Reals.Reals Lra Lia List Arith.PeanoNat Bool.Bool.
From Stdlib Require Import Sorting.Permutation.
Import ListNotations.

Open Scope R_scope.

(** ** Data model *)

(** [X]: the array holding the two coordinates, [X[0]] and [X[1]]. *)
Definition config : Type := (R * R)%type.

(** [images]: the one-dimensional dataset. *)
Definition dataset : Type := list R.

(** The exceptions the modelled code can raise. *)
Inductive PyError : Type :=
| NameError (name : string)
| IndexError.

Definition result (A : Type) : Type := (PyError + A)%type.

Definition ret {A : Type} (a : A) : result A := inr a.
Definition raise {A : Type} (e : PyError) : result A := inl e.

Definition bind {A B : Type} (m : result A) (k : A -> result B) : result B :=
  match m with
  | inl e => inl e
  | inr a => k a
  end.

Notation "x <- m ;; k" := (bind m (fun x => k))
  (at level 61, m at next level, right associativity).

(** Comparisons of floats, as booleans. *)
Definition Rltb (a b : R) : bool := if Rlt_dec a b then true else false.
Definition Rgtb (a b : R) : bool := Rltb b a.

Infix "<?" := Rltb (at level 70, no associativity) : R_scope.
Infix ">?" := Rgtb (at level 70, no associativity) : R_scope.

(** ** Energy model *)

Definition Rsum (l : list R) : R := fold_right Rplus 0 l.

Definition Rmax_list (l : list R) : R :=
  match l with
  | [] => 0
  | a :: l' => fold_left Rmax l' a
  end.

(** [scipy.special.logsumexp] along one axis: the maximum is subtracted
    before exponentiating and added back after the logarithm. *)
Definition logsumexp (col : list R) : R :=
  let a_max := Rmax_list col in
  ln (Rsum (map (fun a => exp (a - a_max)) col)) + a_max.

(** One entry of [0.5 * np.exp(-(X[:, None] - images)**2 / (2 * sigma**2))]:
    row [xi], column [v]. *)
Definition half_gauss (sigma xi v : R) : R :=
  0.5 * exp (- (xi - v) ^ 2 / (2 * sigma ^ 2)).

(** The column of the 2 x N array that belongs to observation [v]. *)
Definition column (X : config) (sigma v : R) : list R :=
  [half_gauss sigma (fst X) v; half_gauss sigma (snd X) v].

(** [energy_em(X, images, sigma, kT)]: [logsumexp(..., axis=0)] reduces
    each column, [np.sum] adds the N results. *)
Definition energy_em (X : config) (images : dataset) (sigma kT : R) : R :=
  - kT * Rsum (map (fun v => logsumexp (column X sigma v)) images).

(** [prior = lambda x, sigma, kT: kT * 0.5 * (x / sigma)**2] *)
Definition prior (x sigma kT : R) : R := kT * 0.5 * (x / sigma) ^ 2.

(** The energy the docstring of [energy_em] announces: [kT] times the
    negative log-likelihood, with the per-observation likelihood
    [0.5 * exp(-(x1 - v)^2 / (2 sigma^2)) + 0.5 * exp(-(x2 - v)^2 / (2 sigma^2))].
    This definition follows the specification, not the code. *)
Definition mixture_neg_log_likelihood
  (X : config) (images : dataset) (sigma kT : R) : R :=
  - kT * Rsum (map (fun v => ln (half_gauss sigma (fst X) v
                                 + half_gauss sigma (snd X) v)) images).

(** ** Sampler state and random source *)

(** A float that may also be [+inf]: the type of the acceptance
    thresholds [p_a = -np.log(np.random.rand(2))]. *)
Inductive ext_real : Type :=
| Fin (r : R)
| PInf.

(** [a < t] and [a > t] for a finite [a] and a threshold [t]. *)
Definition lt_ext (a : R) (t : ext_real) : bool :=
  match t with
  | Fin r => a <? r
  | PInf => true
  end.

Definition gt_ext (a : R) (t : ext_real) : bool :=
  match t with
  | Fin r => a >? r
  | PInf => false
  end.

(** [-np.log(u)] for a draw [u] of [np.random.rand], which ranges over
    [0, 1): [np.log(0.0)] is [-inf]. *)
Definition neg_log (u : R) : ext_real :=
  if Req_dec_T u 0 then PInf else Fin (- ln u).

(** The random numbers one loop iteration consumes, in the order drawn:
    [dx = np.random.normal(0, 0.1, 2)], then [np.random.rand(2)]. *)
Record draw : Type := mkDraw {
  dx : R * R;
  rand : R * R
}.

(** The local variables of [do_mcmc] that live across iterations. *)
Record state : Type := mkState {
  st_x : config;             (* x *)
  st_samples : list config;  (* samples, an array of shape (steps, 2) *)
  st_old_e : R;              (* old_e *)
  st_c : nat                 (* c *)
}.

(** The signature shared by [energy_em] and by whatever [p_em] names. *)
Definition energy_fn : Type := config -> dataset -> R -> R -> R.

(** Module-level names bound to an energy function. *)
Definition globals : Type := list (string * energy_fn).

Fixpoint lookup_global (name : string) (G : globals) : option energy_fn :=
  match G with
  | [] => None
  | (n, f) :: G' => if String.eqb name n then Some f else lookup_global name G'
  end.

(** The names [mcmc_het.py] binds itself: it defines [energy_em], and no
    [p_em]; nothing it imports provides one either. *)
Definition module_globals : globals := [("energy_em"%string, energy_em)].

(** ** Array writes *)

Fixpoint set_nth {A : Type} (i : nat) (v : A) (a : list A) : list A :=
  match a, i with
  | [], _ => []
  | _ :: a', O => v :: a'
  | h :: a', S i' => h :: set_nth i' v a'
  end.

(** [a[i] = v] for [i >= 0]: numpy raises [IndexError] out of range. *)
Definition array_set (i : nat) (v : config) (a : list config)
  : result (list config) :=
  if (i <? length a)%nat then ret (set_nth i v a) else raise IndexError.

(** ** One iteration of the loop *)

Section Iteration.

(** The function the name [p_em] resolved to, and the arguments of the
    call of [do_mcmc]. *)
Variable p_em : energy_fn.
Variable images : dataset.
Variables sigma kT : R.

(** [x1 = x[0] + dx[0]] and [x2 = x[1] + dx[1]] *)
Definition trial1 (d : draw) (x : config) : R := fst x + fst (dx d).
Definition trial2 (d : draw) (x : config) : R := snd x + snd (dx d).

(** The acceptance scores [a1] and [a2]. *)
Definition score1 (d : draw) (x : config) (old_e : R) : R :=
  p_em (trial1 d x, snd x) images sigma kT - old_e
  - prior (trial1 d x) 3 kT + prior (fst x) 3 kT.

Definition score2 (d : draw) (x : config) (old_e : R) : R :=
  p_em (fst x, trial2 d x) images sigma kT - old_e
  - prior (trial2 d x) 3 kT + prior (snd x) 3 kT.

(** [p_a[0]] and [p_a[1]] *)
Definition p_a0 (d : draw) : ext_real := neg_log (fst (rand d)).
Definition p_a1 (d : draw) : ext_real := neg_log (snd (rand d)).

(** The four statements every accepting branch repeats:
    [x = ...; samples[c] = x; old_e = p_em(x, ...); c += 1]. *)
Definition accept (x' : config) (st : state) : result state :=
  samples' <- array_set (st_c st) x' (st_samples st) ;;
  ret {| st_x := x';
         st_samples := samples';
         st_old_e := p_em x' images sigma kT;
         st_c := S (st_c st) |}.

(** The body of the [for] loop. *)
Definition step (d : draw) (st : state) : result state :=
  let x := st_x st in
  let x1 := trial1 d x in
  let x2 := trial2 d x in
  let a1 := score1 d x (st_old_e st) in
  let a2 := score2 d x (st_old_e st) in
  let p0 := p_a0 d in
  let p1 := p_a1 d in
  if (a1 <? 0) && (a2 <? 0) then
    accept (x1, x2) st
  else if (a1 <? 0) && (a2 >? 0) then
    if lt_ext a2 p1 then accept (x1, x2) st
    else accept (x1, snd x) st
  else if (a1 >? 0) && (a2 <? 0) then
    if lt_ext a1 p0 then accept (x1, x2) st
    else accept (fst x, x2) st
  else if (a1 >? 0) && (a2 >? 0) then
    if lt_ext a1 p0 && lt_ext a2 p1 then accept (x1, x2) st
    else if lt_ext a1 p0 && gt_ext a2 p1 then accept (x1, snd x) st
    else if gt_ext a1 p0 && lt_ext a2 p1 then accept (fst x, x2) st
    else ret st
  else ret st.

(** [for _ in range(1, steps)], one draw per iteration. *)
Fixpoint mcmc_loop (ds : list draw) (st : state) : result state :=
  match ds with
  | [] => ret st
  | d :: ds' => st' <- step d st ;; mcmc_loop ds' st'
  end.

End Iteration.

(** ** The sampler *)

(** Lines 60-71 of [do_mcmc]: step 0, the first energy and the counter. *)
Definition init_state (G : globals) (steps : nat) (images : dataset)
  (x0 : config) (sigma kT : R) : result (energy_fn * state) :=
  let x := x0 in
  let samples := repeat (0, 0) steps in
  samples <- array_set 0 x samples ;;
  match lookup_global "p_em" G with
  | None => raise (NameError "p_em")
  | Some p_em =>
      let old_e := p_em x images sigma kT in
      ret (p_em, {| st_x := x; st_samples := samples;
                    st_old_e := old_e; st_c := 1 |})
  end.

(** The draws of the iterations [range(1, 1 + n)]. *)
Definition draws (rng : nat -> draw) (n : nat) : list draw :=
  map rng (seq 1 n).

Arguments draws : simpl never.

(** [do_mcmc(steps, images, x0, sigma, kT)], run in the global
    environment [G] with the random source [rng]; the result is
    [samples[:c, :]]. *)
Definition do_mcmc (G : globals) (rng : nat -> draw) (steps : nat)
  (images : dataset) (x0 : config) (sigma kT : R) : result (list config) :=
  ps <- init_state G steps images x0 sigma kT ;;
  st <- mcmc_loop (fst ps) images sigma kT (draws rng (steps - 1)) (snd ps) ;;
  ret (firstn (st_c st) (st_samples st)).

(** The local variables when [k] iterations have run, that is, at the
    start of iteration [k + 1] (or at the [return] when [k = steps - 1]). *)
Definition state_after (G : globals) (rng : nat -> draw) (steps : nat)
  (images : dataset) (x0 : config) (sigma kT : R) (k : nat) : result state :=
  ps <- init_state G steps images x0 sigma kT ;;
  mcmc_loop (fst ps) images sigma kT (draws rng k) (snd ps).

(** ** Acceptance decisions *)

(** Which coordinates the [if]/[elif] chain of the loop body accepts:
    the first component is [true] when the new [x[0]] is [x1], the second
    when the new [x[1]] is [x2]. *)
Definition four_way (a1 a2 : R) (p0 p1 : ext_real) : bool * bool :=
  if (a1 <? 0) && (a2 <? 0) then (true, true)
  else if (a1 <? 0) && (a2 >? 0) then
    if lt_ext a2 p1 then (true, true) else (true, false)
  else if (a1 >? 0) && (a2 <? 0) then
    if lt_ext a1 p0 then (true, true) else (false, true)
  else if (a1 >? 0) && (a2 >? 0) then
    if lt_ext a1 p0 && lt_ext a2 p1 then (true, true)
    else if lt_ext a1 p0 && gt_ext a2 p1 then (true, false)
    else if gt_ext a1 p0 && lt_ext a2 p1 then (false, true)
    else (false, false)
  else (false, false).

(** The rule of the design notes, following the specification: accept
    coordinate [i] iff [score_i < 0] or [score_i < threshold_i], each
    coordinate on its own, then merged. *)
Definition accept_rule (a : R) (t : ext_real) : bool :=
  (a <? 0) || lt_ext a t.

Definition independent_rule (a1 a2 : R) (p0 p1 : ext_real) : bool * bool :=
  (accept_rule a1 p0, accept_rule a2 p1).

(** A threshold is positive. *)
Definition pos_ext (t : ext_real) : Prop :=
  match t with
  | Fin r => 0 < r
  | PInf => True
  end.

Section Trace.

Variable p_em : energy_fn.
Variable images : dataset.
Variables sigma kT : R.

(** The configuration an iteration accepts, if it accepts one: the
    coordinates whose proposal passed are replaced, the others kept. *)
Definition accepted_config (d : draw) (x : config) (old_e : R)
  : option config :=
  match four_way (score1 p_em images sigma kT d x old_e)
                 (score2 p_em images sigma kT d x old_e)
                 (p_a0 d) (p_a1 d) with
  | (true, true) => Some (trial1 d x, trial2 d x)
  | (true, false) => Some (trial1 d x, snd x)
  | (false, true) => Some (fst x, trial2 d x)
  | (false, false) => None
  end.

(** The configurations accepted by the successive iterations, in
    acceptance order, starting from configuration [x] with cached
    energy [old_e]. *)
Fixpoint accepted_trace (ds : list draw) (x : config) (old_e : R)
  : list config :=
  match ds with
  | [] => []
  | d :: ds' =>
      match accepted_config d x old_e with
      | Some x' => x' :: accepted_trace ds' x' (p_em x' images sigma kT)
      | None => accepted_trace ds' x old_e
      end
  end.

End Trace.

(** The cached energy is the energy of the current configuration. *)
Definition cache_ok (p_em : energy_fn) (images : dataset) (sigma kT : R)
  (st : state) : Prop :=
  st_old_e st = p_em (st_x st) images sigma kT.

(** ** Concrete inputs used by the examples *)

(** The module's environment once the name [p_em] is bound to [p]. *)
Definition bound_globals (p : energy_fn) : globals :=
  ("p_em"%string, p) :: module_globals.

(** A random source that always proposes no displacement and draws
    [0.5] twice. *)
Definition rng_still : nat -> draw := fun _ => mkDraw (0, 0) (0.5, 0.5).

(** The state of a run on [images = [0]], [sigma = kT = 1] that sits at
    the origin with one of three slots filled. *)
Definition st_origin : state :=
  {| st_x := (0, 0);
     st_samples := [(0, 0); (0, 0); (0, 0)];
     st_old_e := energy_em (0, 0) [0] 1 1;
     st_c := 1 |}.

(** ** Data generation: [gen_images] *)

(** The exceptions of the data generator and of the free-energy
    conversion. *)
Inductive NpError : Type :=
| ValueError (msg : string)
| OutOfBounds.

Definition np_result (A : Type) : Type := (NpError + A)%type.

Definition np_bind {A B : Type} (m : np_result A) (k : A -> np_result B)
  : np_result B :=
  match m with
  | inl e => inl e
  | inr a => k a
  end.

Notation "x <~ m ;; k" := (np_bind m (fun x => k))
  (at level 61, m at next level, right associativity).

(** What one iteration of [gen_images] takes from the random source: the
    raw integer behind [np.random.randint] and the standard normal
    deviate behind [np.random.normal]. *)
Record gen_draw : Type := mkGenDraw {
  raw_int : nat;
  gauss : R
}.

(** [np.random.randint(low, high)]: a value of [low, high), or
    [ValueError] when the range is empty. *)
Definition randint (low high raw : nat) : np_result nat :=
  if (high <=? low)%nat then inl (ValueError "low >= high")
  else inr (low + raw mod (high - low))%nat.

(** [np.random.normal(loc, scale)]: [loc + scale * z] for a standard
    normal deviate [z], or [ValueError] for a negative scale. *)
Definition normal (loc scale z : R) : np_result R :=
  if scale <? 0 then inl (ValueError "scale < 0")
  else inr (loc + scale * z).

(** [a[k]] and [a[i] = v] on a one-dimensional float array, for
    non-negative indices. *)
Definition array_get (k : nat) (a : list R) : np_result R :=
  match nth_error a k with
  | Some v => inr v
  | None => inl OutOfBounds
  end.

Definition array_put (i : nat) (v : R) (a : list R) : np_result (list R) :=
  if (i <? length a)%nat then inr (set_nth i v a) else inl OutOfBounds.

(** The [for i in range(n_images)] loop of [gen_images], over the
    indices still to visit. *)
Fixpoint gen_loop (rng : nat -> gen_draw) (centers : list R) (sigma : R)
  (idx : list nat) (dataset : list R) : np_result (list R) :=
  match idx with
  | [] => inr dataset
  | i :: idx' =>
      k <~ randint 0 (length centers) (raw_int (rng i)) ;;
      ck <~ array_get k centers ;;
      v <~ normal ck sigma (gauss (rng i)) ;;
      dataset' <~ array_put i v dataset ;;
      gen_loop rng centers sigma idx' dataset'
  end.

(** [gen_images(n_images, centers, sigma)]; the two [print] calls are
    left out. *)
Definition gen_images (rng : nat -> gen_draw) (n_images : nat)
  (centers : list R) (sigma : R) : np_result (list R) :=
  let dataset := repeat 0 n_images in
  gen_loop rng centers sigma (seq 0 n_images) dataset.

(** The value [gen_images] stores at index [i]. *)
Definition gen_value (rng : nat -> gen_draw) (centers : list R) (sigma : R)
  (i : nat) : R :=
  nth (raw_int (rng i) mod length centers) centers 0
  + sigma * gauss (rng i).

(** ** Free-energy conversion: [p_to_fes] *)

(** A float that may be [nan]: [None] stands for [nan]. *)
Definition nanfloat : Type := option R.

(** [fes[np.where(fes < 0.01)] = float("nan")], entry by entry. *)
Definition mask_small (v : R) : nanfloat :=
  if v <? 0.01 then None else Some v.

(** [-kT * np.log(fes)], entry by entry; [nan] stays [nan]. *)
Definition neg_kT_log (kT : R) (a : nanfloat) : nanfloat :=
  option_map (fun v => - kT * ln v) a.

(** [np.nanmin] on a non-empty array: the least entry that is not [nan],
    and [nan] when every entry is. *)
Fixpoint nanmin (l : list nanfloat) : nanfloat :=
  match l with
  | [] => None
  | None :: l' => nanmin l'
  | Some v :: l' =>
      match nanmin l' with
      | None => Some v
      | Some m => Some (Rmin v m)
      end
  end.

(** [a - m] on floats that may be [nan]. *)
Definition nan_sub (a m : nanfloat) : nanfloat :=
  match a, m with
  | Some x, Some y => Some (x - y)
  | _, _ => None
  end.

(** [p_to_fes(p, grid, kT)].  [np.nanmin] raises [ValueError] on an
    array of size zero. *)
Definition p_to_fes (p grid : list R) (kT : R) : np_result (list nanfloat) :=
  let fes := p in
  let fes := map mask_small fes in
  let fes := map (neg_kT_log kT) fes in
  match fes with
  | [] =>
      inl (ValueError
             "zero-size array to reduction operation fmin which has no identity")
  | _ :: _ =>
      let m := nanmin fes in
      inr (map (fun a => nan_sub a m) fes)
  end.

(** ** Notions used to state the sampler's properties *)

(** [x'] is [x] with the displacement of [d] added to the first
    coordinate, the second, or both, and nothing else changed. *)
Definition moved_by (d : draw) (x x' : config) : Prop :=
  x' = (fst x + fst (dx d), snd x + snd (dx d)) \/
  x' = (fst x + fst (dx d), snd x) \/
  x' = (fst x, snd x + snd (dx d)).

(** Every entry of [l] after [a] is reached from the entry before it by
    the displacement of one of the draws [ds]. *)
Fixpoint chain_moved (ds : list draw) (a : config) (l : list config) : Prop :=
  match l with
  | [] => True
  | b :: l' => (exists d, In d ds /\ moved_by d a b) /\ chain_moved ds b l'
  end.


(** A random source for [gen_images] with raw integers [0, 1, 2, ...]
    and deviates [1]. *)
Definition gen_rng_count : nat -> gen_draw := fun i => mkGenDraw i 1.

(** ** Lemmas on the energy model *)

Lemma exp_shift_sum2 (a b m : R) :
  ln (exp (a - m) + exp (b - m)) + m = ln (exp a + exp b).
Proof.
  assert (H : exp a + exp b = exp m * (exp (a - m) + exp (b - m))).
  { rewrite Rmult_plus_distr_l, <- !exp_plus.
    f_equal; f_equal; lra. }
  rewrite H, ln_mult.
  - rewrite ln_exp. lra.
  - apply exp_pos.
  - apply Rplus_lt_0_compat; apply exp_pos.
Qed.

(** On a two-row column the shifted form is the plain log of the sum of
    the exponentials. *)
Lemma logsumexp_pair (a b : R) :
  logsumexp [a; b] = ln (exp a + exp b).
Proof.
  unfold logsumexp, Rmax_list, Rsum. simpl.
  rewrite Rplus_0_r. apply exp_shift_sum2.
Qed.

Lemma logsumexp_pair_comm (a b : R) :
  logsumexp [a; b] = logsumexp [b; a].
Proof.
  rewrite !logsumexp_pair. f_equal. apply Rplus_comm.
Qed.

(** What [energy_em] computes: the densities themselves, not their
    logarithms, are exponentiated again inside the log-sum-exp. *)
Lemma energy_em_closed_form (X : config) (images : dataset) (sigma kT : R) :
  energy_em X images sigma kT =
  - kT * Rsum (map (fun v => ln (exp (half_gauss sigma (fst X) v)
                                 + exp (half_gauss sigma (snd X) v))) images).
Proof.
  unfold energy_em. f_equal. f_equal.
  apply map_ext. intros v. unfold column. apply logsumexp_pair.
Qed.

Lemma half_gauss_at_center (sigma x : R) : half_gauss sigma x x = 0.5.
Proof.
  unfold half_gauss.
  replace (- (x - x) ^ 2 / (2 * sigma ^ 2)) with 0.
  - rewrite exp_0. lra.
  - unfold Rdiv. replace (x - x) with 0 by lra. simpl. lra.
Qed.

Lemma ln_2_pos : 0 < ln 2.
Proof.
  rewrite <- ln_1. apply ln_increasing; lra.
Qed.

(** The spec formula on one observation sitting on both coordinates. *)
Lemma mixture_at_center (x kT sigma : R) :
  mixture_neg_log_likelihood (x, x) [x] sigma kT = 0.
Proof.
  unfold mixture_neg_log_likelihood, Rsum. simpl.
  rewrite half_gauss_at_center.
  replace (0.5 + 0.5) with 1 by lra.
  rewrite ln_1. lra.
Qed.

(** The code on the same input. *)
Lemma energy_em_at_center (x kT sigma : R) :
  energy_em (x, x) [x] sigma kT = - kT * (0.5 + ln 2).
Proof.
  rewrite energy_em_closed_form. unfold Rsum. simpl.
  rewrite half_gauss_at_center.
  replace (exp 0.5 + exp 0.5) with (2 * exp 0.5) by lra.
  rewrite ln_mult; [ | lra | apply exp_pos ].
  rewrite ln_exp. lra.
Qed.

(** C1 (code defect). The docstring of [energy_em] and the specification
    announce [-kT * sum_j log(0.5*exp(-(x1-v_j)^2/(2 sigma^2)) +
    0.5*exp(-(x2-v_j)^2/(2 sigma^2)))].  The code hands the mixture terms
    themselves, not their logarithms, to [logsumexp], so it returns
    [-kT * sum_j log(exp(0.5*exp(..)) + exp(0.5*exp(..)))].  On
    [X = (0, 0)], [images = [0]], [sigma = kT = 1] the announced energy is
    [0] and the computed one is [-(0.5 + log 2)]. *)
Theorem energy_em_differs_from_neg_log_likelihood :
  mixture_neg_log_likelihood (0, 0) [0] 1 1 = 0 /\
  energy_em (0, 0) [0] 1 1 = - (0.5 + ln 2) /\
  energy_em (0, 0) [0] 1 1 <> mixture_neg_log_likelihood (0, 0) [0] 1 1.
Proof.
  pose proof ln_2_pos as Hln.
  rewrite mixture_at_center, energy_em_at_center.
  repeat split; lra.
Qed.

(** C9. The energy is invariant under swapping the two coordinates, for
    every dataset, [sigma] and [kT]. *)
Theorem energy_em_swap (images : dataset) (sigma kT x1 x2 : R) :
  energy_em (x1, x2) images sigma kT = energy_em (x2, x1) images sigma kT.
Proof.
  unfold energy_em. f_equal. f_equal.
  apply map_ext. intros v. unfold column. simpl.
  apply logsumexp_pair_comm.
Qed.

(** ** Comparisons *)

Lemma Rltb_true (a b : R) : (a <? b) = true <-> a < b.
Proof.
  unfold Rltb. destruct (Rlt_dec a b); split; intros; auto; discriminate.
Qed.

Lemma Rltb_false (a b : R) : (a <? b) = false <-> b <= a.
Proof.
  unfold Rltb. destruct (Rlt_dec a b); split; intros; auto;
    try discriminate; lra.
Qed.

Lemma Rgtb_true (a b : R) : (a >? b) = true <-> b < a.
Proof. unfold Rgtb. apply Rltb_true. Qed.

Lemma Rgtb_false (a b : R) : (a >? b) = false <-> a <= b.
Proof. unfold Rgtb. apply Rltb_false. Qed.

Lemma Rltb_irrefl (a : R) : (a <? a) = false.
Proof. apply Rltb_false. lra. Qed.

Lemma Rgtb_irrefl (a : R) : (a >? a) = false.
Proof. apply Rgtb_false. lra. Qed.

(** Turn every boolean comparison of the context into its inequality. *)
Ltac cmp_to_prop :=
  repeat match goal with
         | H : (_ <? _) = true |- _ => apply Rltb_true in H
         | H : (_ <? _) = false |- _ => apply Rltb_false in H
         | H : (_ >? _) = true |- _ => apply Rgtb_true in H
         | H : (_ >? _) = false |- _ => apply Rgtb_false in H
         end.

(** ** The branch of the loop body *)

Lemma four_way_zero_l (a2 : R) (p0 p1 : ext_real) :
  four_way 0 a2 p0 p1 = (false, false).
Proof.
  unfold four_way. rewrite Rltb_irrefl, Rgtb_irrefl. reflexivity.
Qed.

Lemma four_way_zero_r (a1 : R) (p0 p1 : ext_real) :
  four_way a1 0 p0 p1 = (false, false).
Proof.
  unfold four_way. rewrite Rltb_irrefl, Rgtb_irrefl.
  rewrite !andb_false_r. reflexivity.
Qed.

(** Away from the boundary values (a zero score, a positive score equal
    to its threshold) the chain agrees with the per-coordinate rule. *)
Lemma four_way_agrees_off_ties (a1 a2 : R) (p0 p1 : ext_real) :
  a1 <> 0 -> a2 <> 0 -> p0 <> Fin a1 -> p1 <> Fin a2 ->
  four_way a1 a2 p0 p1 = independent_rule a1 a2 p0 p1.
Proof.
  intros H1 H2 Hp0 Hp1.
  assert (T0 : lt_ext a1 p0 = false -> gt_ext a1 p0 = true \/ p0 = PInf).
  { destruct p0 as [r|]; simpl; [ | now right ].
    intros H. left. cmp_to_prop. apply Rgtb_true.
    destruct (Req_dec r a1); [ subst; contradiction | lra ]. }
  assert (T1 : lt_ext a2 p1 = false -> gt_ext a2 p1 = true \/ p1 = PInf).
  { destruct p1 as [r|]; simpl; [ | now right ].
    intros H. left. cmp_to_prop. apply Rgtb_true.
    destruct (Req_dec r a2); [ subst; contradiction | lra ]. }
  unfold four_way, independent_rule, accept_rule.
  destruct (a1 <? 0) eqn:E1, (a2 <? 0) eqn:E2,
           (a1 >? 0) eqn:G1, (a2 >? 0) eqn:G2;
    cmp_to_prop; try lra; simpl;
    destruct (lt_ext a1 p0) eqn:L0, (lt_ext a2 p1) eqn:L1; simpl;
    try reflexivity;
    try (destruct (T0 eq_refl) as [-> | ->]);
    try (destruct (T1 eq_refl) as [-> | ->]);
    simpl in *; try reflexivity; try discriminate;
    rewrite ?L0, ?L1; reflexivity.
Qed.

(** Whenever the per-coordinate rule rejects both coordinates, so does
    the chain. *)
Lemma rule_rejection_is_chain_rejection (a1 a2 : R) (p0 p1 : ext_real) :
  independent_rule a1 a2 p0 p1 = (false, false) ->
  four_way a1 a2 p0 p1 = (false, false).
Proof.
  unfold independent_rule, accept_rule, four_way. intros H.
  injection H as H1 H2.
  apply orb_false_iff in H1 as [N1 L1].
  apply orb_false_iff in H2 as [N2 L2].
  rewrite N1, N2, L1, L2. simpl.
  rewrite !andb_false_r.
  destruct ((a1 >? 0) && (a2 >? 0)); reflexivity.
Qed.

Section StepFacts.

Variable p_em : energy_fn.
Variable images : dataset.
Variables sigma kT : R.

(** The loop body, read through the outcome of its branch. *)
Lemma step_four_way (d : draw) (st : state) :
  step p_em images sigma kT d st =
  match accepted_config p_em images sigma kT d (st_x st) (st_old_e st) with
  | Some x' => accept p_em images sigma kT x' st
  | None => ret st
  end.
Proof.
  unfold step, accepted_config, four_way.
  cbv zeta.
  repeat match goal with
         | |- context [if ?b then _ else _] => destruct b; simpl
         end; reflexivity.
Qed.

Lemma accept_in_range (x' : config) (st : state) :
  (st_c st < length (st_samples st))%nat ->
  accept p_em images sigma kT x' st =
  inr {| st_x := x';
         st_samples := set_nth (st_c st) x' (st_samples st);
         st_old_e := p_em x' images sigma kT;
         st_c := S (st_c st) |}.
Proof.
  intros H. unfold accept, array_set.
  apply Nat.ltb_lt in H. rewrite H. reflexivity.
Qed.

End StepFacts.

(** ** Array writes *)

Lemma set_nth_length {A : Type} (i : nat) (v : A) (a : list A) :
  length (set_nth i v a) = length a.
Proof.
  revert i. induction a as [|h a IH]; intros [|i]; simpl; auto.
Qed.

(** Writing at index [i] extends the prefix of length [i] by the value
    written. *)
Lemma firstn_set_nth_snoc {A : Type} (i : nat) (v : A) (a : list A) :
  (i < length a)%nat ->
  firstn (S i) (set_nth i v a) = firstn i a ++ [v].
Proof.
  revert i. induction a as [|h a IH]; intros [|i] H; simpl in *;
    try lia; auto.
  f_equal. apply IH. lia.
Qed.

(** ** The loop *)

Section LoopFacts.

Variable p_em : energy_fn.
Variable images : dataset.
Variables sigma kT : R.

Local Abbreviation step := (step p_em images sigma kT).
Local Abbreviation accepted_config := (accepted_config p_em images sigma kT).
Local Abbreviation mcmc_loop := (mcmc_loop p_em images sigma kT).
Local Abbreviation accepted_trace := (accepted_trace p_em images sigma kT).
Local Abbreviation cache_ok := (cache_ok p_em images sigma kT).

(** A rejecting iteration is the identity on the state. *)
Lemma step_reject (d : draw) (st : state) :
  accepted_config d (st_x st) (st_old_e st) = None ->
  step d st = inr st.
Proof.
  intros H. rewrite step_four_way, H. reflexivity.
Qed.

(** An accepting iteration writes the accepted configuration at index [c],
    refreshes the cache and advances the counter. *)
Lemma step_accept (d : draw) (st : state) (x' : config) :
  accepted_config d (st_x st) (st_old_e st) = Some x' ->
  (st_c st < length (st_samples st))%nat ->
  step d st =
  inr {| st_x := x';
         st_samples := set_nth (st_c st) x' (st_samples st);
         st_old_e := p_em x' images sigma kT;
         st_c := S (st_c st) |}.
Proof.
  intros H Hc. rewrite step_four_way, H. now apply accept_in_range.
Qed.

Lemma mcmc_loop_app (ds1 ds2 : list draw) (st : state) :
  mcmc_loop (ds1 ++ ds2) st = (st' <- mcmc_loop ds1 st ;; mcmc_loop ds2 st').
Proof.
  revert st. induction ds1 as [|d ds1 IH]; intros st; simpl; auto.
  destruct (step d st) as [e|st1]; simpl; auto.
Qed.

Lemma accepted_trace_length (ds : list draw) (x : config) (old_e : R) :
  (length (accepted_trace ds x old_e) <= length ds)%nat.
Proof.
  revert x old_e. induction ds as [|d ds IH]; intros x old_e; simpl; auto.
  destruct (accepted_config d x old_e) as [x'|]; simpl.
  - specialize (IH x' (p_em x' images sigma kT)). lia.
  - specialize (IH x old_e). lia.
Qed.

(** When the array has room for one write per remaining iteration, the
    loop raises nothing; it keeps the array's size, appends the accepted
    configurations after the prefix already filled, and keeps the cache
    in step with the configuration. *)
Lemma mcmc_loop_spec (ds : list draw) :
  forall st : state,
    (st_c st + length ds <= length (st_samples st))%nat ->
    exists st' : state,
      mcmc_loop ds st = inr st' /\
      length (st_samples st') = length (st_samples st) /\
      (st_c st <= st_c st' <= st_c st + length ds)%nat /\
      firstn (st_c st') (st_samples st') =
        firstn (st_c st) (st_samples st)
        ++ accepted_trace ds (st_x st) (st_old_e st) /\
      (cache_ok st -> cache_ok st').
Proof.
  induction ds as [|d ds IH]; intros st Hroom; simpl in *.
  - exists st. rewrite app_nil_r. repeat split; auto; lia.
  - destruct (accepted_config d (st_x st) (st_old_e st)) as [x'|] eqn:Hacc.
    + rewrite (step_accept d st x' Hacc) by lia. simpl.
      set (st1 := {| st_x := x';
                     st_samples := set_nth (st_c st) x' (st_samples st);
                     st_old_e := p_em x' images sigma kT;
                     st_c := S (st_c st) |}).
      destruct (IH st1) as (st' & Hrun & Hlen & Hc & Hpre & Hinv).
      { simpl. rewrite set_nth_length. lia. }
      subst st1. cbn [st_c st_samples st_x st_old_e] in *.
      exists st'. rewrite set_nth_length in Hlen.
      repeat split; auto; try lia.
      * rewrite Hpre, firstn_set_nth_snoc by lia.
        rewrite <- app_assoc. reflexivity.
      * intros _. apply Hinv. reflexivity.
    + rewrite (step_reject d st Hacc). simpl.
      destruct (IH st) as (st' & Hrun & Hlen & Hc & Hpre & Hinv); [lia|].
      exists st'. repeat split; auto; lia.
Qed.

End LoopFacts.

(** ** The sampler as a whole *)

Lemma draws_length (rng : nat -> draw) (n : nat) :
  length (draws rng n) = n.
Proof. unfold draws. now rewrite length_map, length_seq. Qed.

Lemma draws_succ (rng : nat -> draw) (n : nat) :
  draws rng (S n) = draws rng n ++ [rng (S n)].
Proof. unfold draws. rewrite seq_S, map_app. reflexivity. Qed.

Section SamplerFacts.

Variable G : globals.
Variable p_em : energy_fn.
Hypothesis p_em_bound : lookup_global "p_em" G = Some p_em.

Variable rng : nat -> draw.
Variable images : dataset.
Variable x0 : config.
Variables sigma kT : R.

Local Abbreviation accepted_trace := (accepted_trace p_em images sigma kT).
Local Abbreviation cache_ok := (cache_ok p_em images sigma kT).

(** The state on entry to the loop. *)
Lemma init_state_ok (steps : nat) :
  (1 <= steps)%nat ->
  init_state G steps images x0 sigma kT =
  inr (p_em, {| st_x := x0;
                st_samples := x0 :: repeat (0, 0) (steps - 1);
                st_old_e := p_em x0 images sigma kT;
                st_c := 1 |}).
Proof.
  intros H. destruct steps as [|n]; [lia|].
  unfold init_state. simpl. rewrite p_em_bound, Nat.sub_0_r. reflexivity.
Qed.

(** With [p_em] bound and at least one step requested, the call returns:
    the initial configuration, then the accepted configurations. *)
Lemma do_mcmc_returns (steps : nat) :
  (1 <= steps)%nat ->
  do_mcmc G rng steps images x0 sigma kT =
  inr (x0 :: accepted_trace (draws rng (steps - 1)) x0
                            (p_em x0 images sigma kT)).
Proof.
  intros H. unfold do_mcmc. rewrite (init_state_ok steps H). simpl.
  match goal with
  | |- context [mcmc_loop _ _ _ _ ?ds ?st] =>
      destruct (mcmc_loop_spec p_em images sigma kT ds st)
        as (st' & Hrun & _ & _ & Hpre & _)
  end.
  { simpl. rewrite draws_length, repeat_length. lia. }
  rewrite Hrun. simpl. rewrite Hpre. reflexivity.
Qed.

(** The state after [k] of the [steps - 1] iterations exists, has a
    valid cache and room for the writes still to come. *)
Lemma state_after_spec (steps k : nat) :
  (1 <= steps)%nat -> (k <= steps - 1)%nat ->
  exists st : state,
    state_after G rng steps images x0 sigma kT k = inr st /\
    cache_ok st /\
    (st_c st + (steps - 1 - k) <= length (st_samples st))%nat.
Proof.
  intros H Hk. unfold state_after. rewrite (init_state_ok steps H). simpl.
  match goal with
  | |- context [mcmc_loop _ _ _ _ ?ds ?st] =>
      destruct (mcmc_loop_spec p_em images sigma kT ds st)
        as (st' & Hrun & Hlen & Hc & _ & Hinv)
  end.
  { simpl. rewrite draws_length, repeat_length. lia. }
  exists st'. simpl in *. rewrite draws_length in Hc.
  rewrite repeat_length in Hlen.
  repeat split; auto.
  - apply Hinv. reflexivity.
  - lia.
Qed.

Lemma state_after_succ (steps k : nat) (st : state) :
  state_after G rng steps images x0 sigma kT k = inr st ->
  state_after G rng steps images x0 sigma kT (S k) =
  step p_em images sigma kT (rng (S k)) st.
Proof.
  unfold state_after.
  destruct (init_state G steps images x0 sigma kT) as [e|[p st0]] eqn:Hinit;
    cbn [bind fst snd]; [discriminate|].
  assert (p = p_em) as ->.
  { unfold init_state in Hinit.
    destruct (array_set 0 x0 (repeat (0, 0) steps)); simpl in Hinit;
      [discriminate|].
    rewrite p_em_bound in Hinit. now inversion Hinit. }
  intros Hk. rewrite draws_succ, mcmc_loop_app, Hk. cbn [bind mcmc_loop].
  destruct (step p_em images sigma kT (rng (S k)) st); reflexivity.
Qed.

End SamplerFacts.

(** The value returned is read off the state left by the last iteration. *)
Lemma do_mcmc_state_after (G : globals) (rng : nat -> draw) (steps : nat)
  (images : dataset) (x0 : config) (sigma kT : R) :
  do_mcmc G rng steps images x0 sigma kT =
  (st <- state_after G rng steps images x0 sigma kT (steps - 1) ;;
   ret (firstn (st_c st) (st_samples st))).
Proof.
  unfold do_mcmc, state_after.
  destruct (init_state G steps images x0 sigma kT); reflexivity.
Qed.

(** ** Facts about the example inputs *)

Lemma score1_still (i : nat) :
  score1 energy_em [0] 1 1 (rng_still i) (0, 0) (energy_em (0, 0) [0] 1 1) = 0.
Proof.
  unfold score1, trial1, rng_still. simpl.
  replace (0 + 0) with 0 by lra. lra.
Qed.

Lemma accepted_config_still (i : nat) :
  accepted_config energy_em [0] 1 1 (rng_still i) (0, 0)
                  (energy_em (0, 0) [0] 1 1) = None.
Proof.
  unfold accepted_config. rewrite score1_still, four_way_zero_l. reflexivity.
Qed.

Lemma bound_globals_lookup (p : energy_fn) :
  lookup_global "p_em" (bound_globals p) = Some p.
Proof. reflexivity. Qed.

(** ** The claims about the sampler *)

(** C2 (code defect). The specification says a call of [do_mcmc] on valid
    input raises nothing.  In the module as written the name [p_em] is
    bound nowhere (the energy function is called [energy_em]), so every
    call with [steps >= 1] stops at [old_e = p_em(...)] with a
    [NameError], whatever the draws, dataset, start and parameters. *)
Theorem do_mcmc_raises_name_error
  (rng : nat -> draw) (n : nat) (images : dataset) (x0 : config)
  (sigma kT : R) :
  do_mcmc module_globals rng (S n) images x0 sigma kT
  = inl (NameError "p_em").
Proof. reflexivity. Qed.

(** Once the name [p_em] is bound and at least one step is requested, the
    call returns: no write to [samples] is out of range. *)
Lemma do_mcmc_total (G : globals) (p : energy_fn) (rng : nat -> draw)
  (steps : nat) (images : dataset) (x0 : config) (sigma kT : R) :
  lookup_global "p_em" G = Some p -> (1 <= steps)%nat ->
  exists out : list config,
    do_mcmc G rng steps images x0 sigma kT = inr out.
Proof.
  intros HG H. eexists. now apply (do_mcmc_returns G p HG).
Qed.

(** C3, as stated, fails: a run of two steps whose only iteration rejects
    both proposals returns one entry, the initial configuration, although
    no iteration accepted anything. *)
Lemma initial_entry_was_never_accepted :
  exists out : list config,
    do_mcmc (bound_globals energy_em) rng_still 2 [0] (0, 0) 1 1 = inr out /\
    accepted_trace energy_em [0] 1 1 (draws rng_still (2 - 1)) (0, 0)
                   (energy_em (0, 0) [0] 1 1) = [] /\
    ~ (forall e : config,
          In e out ->
          In e (accepted_trace energy_em [0] 1 1 (draws rng_still (2 - 1))
                               (0, 0) (energy_em (0, 0) [0] 1 1))).
Proof.
  assert (Htrace :
    accepted_trace energy_em [0] 1 1 (draws rng_still (2 - 1)) (0, 0)
                   (energy_em (0, 0) [0] 1 1) = []).
  { unfold draws. cbn [Nat.sub seq map accepted_trace].
    now rewrite accepted_config_still. }
  exists [(0, 0)]. split; [ | split ].
  - rewrite (do_mcmc_returns _ energy_em (bound_globals_lookup energy_em))
      by lia.
    now rewrite Htrace.
  - exact Htrace.
  - rewrite Htrace. intros H. apply (H (0, 0)). now left.
Qed.

(** C3 (amended). The returned sequence is the initial configuration [x0]
    followed by the configurations accepted by the iterations, in
    acceptance order: every entry after the first was accepted in some
    iteration, and the first one was subjected to no acceptance test. *)
Theorem do_mcmc_initial_then_accepted
  (G : globals) (p : energy_fn) (rng : nat -> draw) (steps : nat)
  (images : dataset) (x0 : config) (sigma kT : R) :
  lookup_global "p_em" G = Some p -> (1 <= steps)%nat ->
  do_mcmc G rng steps images x0 sigma kT =
  inr (x0 :: accepted_trace p images sigma kT (draws rng (steps - 1)) x0
                            (p x0 images sigma kT)).
Proof.
  intros HG H. now apply do_mcmc_returns.
Qed.

Lemma do_mcmc_initial_then_accepted_witness :
  lookup_global "p_em" (bound_globals energy_em) = Some energy_em /\
  (1 <= 2)%nat /\
  do_mcmc (bound_globals energy_em) rng_still 2 [0] (0, 0) 1 1 =
  inr ((0, 0) :: accepted_trace energy_em [0] 1 1 (draws rng_still (2 - 1))
                                (0, 0) (energy_em (0, 0) [0] 1 1)).
Proof.
  split; [reflexivity|]. split; [lia|].
  apply (do_mcmc_initial_then_accepted
           (bound_globals energy_em) energy_em rng_still 2 [0] (0, 0) 1 1);
    [reflexivity | lia].
Defined.

(** C4 (code defect). The [if]/[elif] chain is not the per-coordinate rule
    "accept coordinate i iff score_i < 0 or score_i < threshold_i": with
    scores [a1 = 0], [a2 = -1] and thresholds [1], [1] the rule accepts
    both coordinates and the chain accepts neither, because no arm of the
    chain covers a score equal to zero. *)
Theorem four_way_misses_zero_score :
  pos_ext (Fin 1) /\
  four_way 0 (-1) (Fin 1) (Fin 1) = (false, false) /\
  independent_rule 0 (-1) (Fin 1) (Fin 1) = (true, true) /\
  four_way 0 (-1) (Fin 1) (Fin 1) <> independent_rule 0 (-1) (Fin 1) (Fin 1).
Proof.
  assert (Hr : independent_rule 0 (-1) (Fin 1) (Fin 1) = (true, true)).
  { unfold independent_rule, accept_rule. simpl.
    assert (H1 : (0 <? 1) = true) by (apply Rltb_true; lra).
    assert (H2 : (-1 <? 0) = true) by (apply Rltb_true; lra).
    rewrite H1, H2, Rltb_irrefl. reflexivity. }
  rewrite four_way_zero_l, Hr. simpl.
  repeat split; try lra. discriminate.
Qed.

(** C5. For [steps >= 1] the call returns a sequence whose length lies
    between 0 and [steps]; for [steps = 1] the length is 0 or 1. *)
Theorem do_mcmc_length_bound
  (G : globals) (p : energy_fn) (rng : nat -> draw) (steps : nat)
  (images : dataset) (x0 : config) (sigma kT : R) :
  lookup_global "p_em" G = Some p -> (1 <= steps)%nat ->
  exists out : list config,
    do_mcmc G rng steps images x0 sigma kT = inr out /\
    (0 <= length out <= steps)%nat /\
    (steps = 1%nat -> length out = 0%nat \/ length out = 1%nat).
Proof.
  intros HG H. eexists. split; [ now apply (do_mcmc_returns G p HG) | ].
  pose proof (accepted_trace_length p images sigma kT
                (draws rng (steps - 1)) x0 (p x0 images sigma kT)) as Hlen.
  rewrite draws_length in Hlen. cbn [length].
  set (n := length _) in *. clearbody n. lia.
Qed.

Lemma do_mcmc_length_bound_witness :
  lookup_global "p_em" (bound_globals energy_em) = Some energy_em /\
  (1 <= 1)%nat /\
  exists out : list config,
    do_mcmc (bound_globals energy_em) rng_still 1 [0] (0, 0) 1 1 = inr out /\
    (0 <= length out <= 1)%nat /\
    (1%nat = 1%nat -> length out = 0%nat \/ length out = 1%nat).
Proof.
  split; [reflexivity|]. split; [lia|].
  apply (do_mcmc_length_bound
           (bound_globals energy_em) energy_em rng_still 1 [0] (0, 0) 1 1);
    [reflexivity | lia].
Defined.

(** C6. When either acceptance score is exactly zero no arm of the
    four-way conditional is taken: neither coordinate is accepted, nothing
    is appended, and configuration, cached energy and counter stay as
    they were, whatever the other score is (also when it is negative). *)
Theorem zero_score_rejects_both
  (p : energy_fn) (images : dataset) (sigma kT : R) (d : draw) (st : state) :
  score1 p images sigma kT d (st_x st) (st_old_e st) = 0 \/
  score2 p images sigma kT d (st_x st) (st_old_e st) = 0 ->
  four_way (score1 p images sigma kT d (st_x st) (st_old_e st))
           (score2 p images sigma kT d (st_x st) (st_old_e st))
           (p_a0 d) (p_a1 d) = (false, false) /\
  step p images sigma kT d st = inr st.
Proof.
  intros H.
  assert (Hfw : four_way (score1 p images sigma kT d (st_x st) (st_old_e st))
                         (score2 p images sigma kT d (st_x st) (st_old_e st))
                         (p_a0 d) (p_a1 d) = (false, false)).
  { destruct H as [-> | ->];
      [ apply four_way_zero_l | apply four_way_zero_r ]. }
  split; [exact Hfw|].
  apply step_reject. unfold accepted_config. now rewrite Hfw.
Qed.

Lemma zero_score_rejects_both_witness :
  (score1 energy_em [0] 1 1 (rng_still 1) (st_x st_origin)
          (st_old_e st_origin) = 0 \/
   score2 energy_em [0] 1 1 (rng_still 1) (st_x st_origin)
          (st_old_e st_origin) = 0) /\
  four_way (score1 energy_em [0] 1 1 (rng_still 1) (st_x st_origin)
                   (st_old_e st_origin))
           (score2 energy_em [0] 1 1 (rng_still 1) (st_x st_origin)
                   (st_old_e st_origin))
           (p_a0 (rng_still 1)) (p_a1 (rng_still 1)) = (false, false) /\
  step energy_em [0] 1 1 (rng_still 1) st_origin = inr st_origin.
Proof.
  split.
  - left. apply (score1_still 1).
  - apply (zero_score_rejects_both energy_em [0] 1 1 (rng_still 1) st_origin).
    left. apply (score1_still 1).
Defined.

(** C7. An iteration in which neither coordinate's proposal is accepted
    appends nothing and leaves the configuration, the cached energy and
    the accepted-sample counter unchanged for the next iteration. *)
Theorem rejecting_iteration_keeps_state
  (p : energy_fn) (images : dataset) (sigma kT : R) (d : draw) (st : state) :
  four_way (score1 p images sigma kT d (st_x st) (st_old_e st))
           (score2 p images sigma kT d (st_x st) (st_old_e st))
           (p_a0 d) (p_a1 d) = (false, false) ->
  exists st' : state,
    step p images sigma kT d st = inr st' /\
    st_samples st' = st_samples st /\
    st_x st' = st_x st /\
    st_old_e st' = st_old_e st /\
    st_c st' = st_c st.
Proof.
  intros Hfw. exists st. split; [ | repeat split ].
  apply step_reject. unfold accepted_config. now rewrite Hfw.
Qed.

Lemma rejecting_iteration_keeps_state_witness :
  four_way (score1 energy_em [0] 1 1 (rng_still 1) (st_x st_origin)
                   (st_old_e st_origin))
           (score2 energy_em [0] 1 1 (rng_still 1) (st_x st_origin)
                   (st_old_e st_origin))
           (p_a0 (rng_still 1)) (p_a1 (rng_still 1)) = (false, false) /\
  exists st' : state,
    step energy_em [0] 1 1 (rng_still 1) st_origin = inr st' /\
    st_samples st' = st_samples st_origin /\
    st_x st' = st_x st_origin /\
    st_old_e st' = st_old_e st_origin /\
    st_c st' = st_c st_origin.
Proof.
  assert (H : four_way
                (score1 energy_em [0] 1 1 (rng_still 1) (st_x st_origin)
                        (st_old_e st_origin))
                (score2 energy_em [0] 1 1 (rng_still 1) (st_x st_origin)
                        (st_old_e st_origin))
                (p_a0 (rng_still 1)) (p_a1 (rng_still 1)) = (false, false)).
  { change (st_x st_origin) with ((0, 0) : config).
    change (st_old_e st_origin) with (energy_em (0, 0) [0] 1 1).
    rewrite score1_still. apply four_way_zero_l. }
  split; [exact H|].
  apply (rejecting_iteration_keeps_state
           energy_em [0] 1 1 (rng_still 1) st_origin H).
Defined.

(** C8. At the start of every iteration (and at the return) the cached
    energy [old_e] is the energy function applied to the current
    configuration with the run's dataset, [sigma] and [kT].  The next
    iteration refreshes the cache with the energy of the configuration it
    accepts, and leaves the whole state alone when it rejects both
    proposals. *)
Theorem cached_energy_invariant
  (G : globals) (p : energy_fn) (rng : nat -> draw) (steps : nat)
  (images : dataset) (x0 : config) (sigma kT : R) (k : nat) :
  lookup_global "p_em" G = Some p ->
  (1 <= steps)%nat -> (k <= steps - 1)%nat ->
  exists st : state,
    state_after G rng steps images x0 sigma kT k = inr st /\
    st_old_e st = p (st_x st) images sigma kT /\
    ((k < steps - 1)%nat ->
     state_after G rng steps images x0 sigma kT (S k)
     = step p images sigma kT (rng (S k)) st /\
     match accepted_config p images sigma kT (rng (S k))
                           (st_x st) (st_old_e st) with
     | Some x' =>
         exists st' : state,
           step p images sigma kT (rng (S k)) st = inr st' /\
           st_x st' = x' /\
           st_old_e st' = p x' images sigma kT
     | None => step p images sigma kT (rng (S k)) st = inr st
     end).
Proof.
  intros HG H Hk.
  destruct (state_after_spec G p HG rng images x0 sigma kT steps k H Hk)
    as (st & Hst & Hinv & Hroom).
  exists st. split; [exact Hst|]. split; [exact Hinv|].
  intros Hlt. split.
  - now apply (state_after_succ G p HG).
  - destruct (accepted_config p images sigma kT (rng (S k))
                              (st_x st) (st_old_e st)) as [x'|] eqn:Hacc.
    + eexists. split; [ apply (step_accept _ _ _ _ _ _ _ Hacc); lia | ].
      split; reflexivity.
    + now apply step_reject.
Qed.

Lemma cached_energy_invariant_witness :
  lookup_global "p_em" (bound_globals energy_em) = Some energy_em /\
  (1 <= 2)%nat /\ (0 <= 2 - 1)%nat /\
  exists st : state,
    state_after (bound_globals energy_em) rng_still 2 [0] (0, 0) 1 1 0
    = inr st /\
    st_old_e st = energy_em (st_x st) [0] 1 1.
Proof.
  split; [reflexivity|]. split; [lia|]. split; [lia|].
  destruct (cached_energy_invariant
              (bound_globals energy_em) energy_em rng_still 2 [0] (0, 0) 1 1 0)
    as (st & Hst & Hinv & _); [reflexivity | lia | lia | ].
  exists st. split; assumption.
Defined.

(** C10. For [steps >= 1] the returned sequence is not empty and its first
    entry is the initial configuration [x0]; its length is at least 1. *)
Theorem do_mcmc_starts_with_x0
  (G : globals) (p : energy_fn) (rng : nat -> draw) (steps : nat)
  (images : dataset) (x0 : config) (sigma kT : R) :
  lookup_global "p_em" G = Some p -> (1 <= steps)%nat ->
  exists rest : list config,
    do_mcmc G rng steps images x0 sigma kT = inr (x0 :: rest) /\
    (1 <= length (x0 :: rest))%nat.
Proof.
  intros HG H. eexists. split; [ now apply (do_mcmc_returns G p HG) | ].
  simpl. lia.
Qed.

Lemma do_mcmc_starts_with_x0_witness :
  lookup_global "p_em" (bound_globals energy_em) = Some energy_em /\
  (1 <= 3)%nat /\
  exists rest : list config,
    do_mcmc (bound_globals energy_em) rng_still 3 [0] (0, 0) 1 1
    = inr ((0, 0) :: rest) /\
    (1 <= length ((0, 0)%R :: rest))%nat.
Proof.
  split; [reflexivity|]. split; [lia|].
  apply (do_mcmc_starts_with_x0
           (bound_globals energy_em) energy_em rng_still 3 [0] (0, 0) 1 1);
    [reflexivity | lia].
Defined.

(** * Further properties of the code *)

(** ** The energy model and the prior *)







(** X3. The temperature enters as a factor only: the energy at [kT] is
    [kT] times the energy at temperature 1. *)
Theorem energy_em_linear_in_kT
  (X : config) (images : dataset) (sigma kT : R) :
  energy_em X images sigma kT = kT * energy_em X images sigma 1.
Proof. unfold energy_em. lra. Qed.

Lemma half_gauss_neg_sigma (sigma xi v : R) :
  half_gauss (- sigma) xi v = half_gauss sigma xi v.
Proof.
  unfold half_gauss. replace ((- sigma) ^ 2) with (sigma ^ 2) by ring.
  reflexivity.
Qed.

(** X4. A negative [sigma] is not rejected: only [sigma**2] is used, so
    [-sigma] gives the same energy as [sigma]. *)
Theorem energy_em_sigma_sign
  (X : config) (images : dataset) (sigma kT : R) :
  energy_em X images (- sigma) kT = energy_em X images sigma kT.
Proof.
  unfold energy_em, column. f_equal. f_equal.
  apply map_ext. intros v. now rewrite !half_gauss_neg_sigma.
Qed.






Lemma ln_le_mono (a b : R) : 0 < a -> a <= b -> ln a <= ln b.
Proof.
  intros Ha [H | ->]; [left; now apply ln_increasing | right; reflexivity].
Qed.










(** ** The sampler *)

(** X10. With [steps = 0] the array [samples] has no row, and the write
    [samples[0] = x] raises [IndexError] before anything else happens,
    whatever the environment binds. *)
Theorem do_mcmc_zero_steps
  (G : globals) (rng : nat -> draw) (images : dataset) (x0 : config)
  (sigma kT : R) :
  do_mcmc G rng 0 images x0 sigma kT = inl IndexError.
Proof. reflexivity. Qed.

Section SamplerProperties.

Variable p_em : energy_fn.
Variable images : dataset.
Variables sigma kT : R.

(** A zero displacement of the first coordinate gives a zero score when
    the cache is valid. *)
Lemma score1_zero_displacement (d : draw) (x : config) :
  fst (dx d) = 0 ->
  score1 p_em images sigma kT d x (p_em x images sigma kT) = 0.
Proof.
  intros H. unfold score1, trial1. rewrite H, Rplus_0_r.
  destruct x as [a b]. simpl. lra.
Qed.

Lemma score2_zero_displacement (d : draw) (x : config) :
  snd (dx d) = 0 ->
  score2 p_em images sigma kT d x (p_em x images sigma kT) = 0.
Proof.
  intros H. unfold score2, trial2. rewrite H, Rplus_0_r.
  destruct x as [a b]. simpl. lra.
Qed.

Lemma accepted_trace_zero_displacement (ds : list draw) (x : config) :
  (forall d, In d ds -> fst (dx d) = 0 \/ snd (dx d) = 0) ->
  accepted_trace p_em images sigma kT ds x (p_em x images sigma kT) = [].
Proof.
  induction ds as [|d ds IH]; intros H; simpl; [reflexivity|].
  assert (Hnone : accepted_config p_em images sigma kT d x
                    (p_em x images sigma kT) = None).
  { unfold accepted_config.
    destruct (H d (or_introl eq_refl)) as [H0 | H0].
    - rewrite (score1_zero_displacement d x H0), four_way_zero_l.
      reflexivity.
    - rewrite (score2_zero_displacement d x H0), four_way_zero_r.
      reflexivity. }
  rewrite Hnone. apply IH. intros d' Hd'. apply H. now right.
Qed.

(** What an accepting iteration may do to the configuration. *)
Lemma accepted_config_moved (d : draw) (x x' : config) (old_e : R) :
  accepted_config p_em images sigma kT d x old_e = Some x' ->
  moved_by d x x'.
Proof.
  unfold accepted_config, moved_by, trial1, trial2.
  destruct (four_way _ _ _ _) as [[|] [|]]; intros H;
    inversion H; auto.
Qed.

Lemma chain_moved_weaken (d : draw) (ds : list draw) (a : config)
  (l : list config) :
  chain_moved ds a l -> chain_moved (d :: ds) a l.
Proof.
  revert a. induction l as [|b l IH]; intros a; simpl; auto.
  intros [(d' & Hin & Hmv) Hrest]. split; [ | now apply IH ].
  exists d'. split; [now right | exact Hmv].
Qed.

Lemma accepted_trace_chain (ds : list draw) (x : config) (old_e : R) :
  chain_moved ds x (accepted_trace p_em images sigma kT ds x old_e).
Proof.
  revert x old_e. induction ds as [|d ds IH]; intros x old_e; simpl; auto.
  destruct (accepted_config p_em images sigma kT d x old_e) as [x'|] eqn:Hacc.
  - simpl. split.
    + exists d. split; [now left | now apply (accepted_config_moved d x x' old_e)].
    + apply chain_moved_weaken, IH.
  - apply chain_moved_weaken, IH.
Qed.

(** The trace of a longer run extends the trace of a shorter one. *)
Lemma accepted_trace_app (ds1 ds2 : list draw) (x : config) (old_e : R) :
  exists (x' : config) (old_e' : R),
    accepted_trace p_em images sigma kT (ds1 ++ ds2) x old_e =
    accepted_trace p_em images sigma kT ds1 x old_e
    ++ accepted_trace p_em images sigma kT ds2 x' old_e'.
Proof.
  revert x old_e. induction ds1 as [|d ds1 IH]; intros x old_e; simpl.
  - now exists x, old_e.
  - destruct (accepted_config p_em images sigma kT d x old_e) as [x1|].
    + destruct (IH x1 (p_em x1 images sigma kT)) as (x' & e' & ->).
      now exists x', e'.
    + apply IH.
Qed.


(** Any property of the state that every successful iteration keeps is
    kept by the loop. *)
Lemma mcmc_loop_invariant (P : state -> Prop) :
  (forall d st st',
      P st -> step p_em images sigma kT d st = inr st' -> P st') ->
  forall ds st st',
    P st -> mcmc_loop p_em images sigma kT ds st = inr st' -> P st'.
Proof.
  intros Hstep. induction ds as [|d ds IH]; intros st st' HP Hrun; simpl in *.
  - inversion Hrun. now subst.
  - destruct (step p_em images sigma kT d st) as [e|st1] eqn:Hs;
      simpl in Hrun; [discriminate|].
    apply (IH st1 st'); [ now apply (Hstep d st) | exact Hrun ].
Qed.

End SamplerProperties.

Lemma nth_error_set_nth {A : Type} (i : nat) (v : A) (a : list A) :
  (i < length a)%nat -> nth_error (set_nth i v a) i = Some v.
Proof.
  revert i. induction a as [|h a IH]; intros [|i] H; simpl in *;
    try lia; auto.
  apply IH. lia.
Qed.

(** The configuration is the row of [samples] written last. *)
Lemma step_keeps_last_row (p : energy_fn) (images : dataset) (sigma kT : R)
  (d : draw) (st st' : state) :
  (1 <= st_c st)%nat /\
  nth_error (st_samples st) (st_c st - 1) = Some (st_x st) ->
  step p images sigma kT d st = inr st' ->
  (1 <= st_c st')%nat /\
  nth_error (st_samples st') (st_c st' - 1) = Some (st_x st').
Proof.
  intros [Hc Hrow]. rewrite step_four_way.
  destruct (accepted_config p images sigma kT d (st_x st) (st_old_e st))
    as [x'|].
  - unfold accept, array_set.
    destruct (st_c st <? length (st_samples st))%nat eqn:Hlt; simpl;
      [ | discriminate ].
    intros H. inversion H. subst st'. simpl. split; [lia|].
    rewrite Nat.sub_0_r. apply nth_error_set_nth. now apply Nat.ltb_lt.
  - intros H. inversion H. subst st'. now split.
Qed.

Lemma in_draws (rng : nat -> draw) (n : nat) (d : draw) :
  In d (draws rng n) -> exists i : nat, d = rng i.
Proof.
  unfold draws. intros H. apply in_map_iff in H as (i & Hi & _).
  now exists i.
Qed.

Lemma last_firstn_row {A : Type} (l : list A) (c : nat) (x d : A) :
  (1 <= c)%nat -> nth_error l (c - 1) = Some x ->
  last (firstn c l) d = x.
Proof.
  revert c. induction l as [|h t IH]; intros [|c] Hc Hrow; try lia.
  - destruct c; discriminate.
  - simpl in Hrow. rewrite Nat.sub_0_r in Hrow.
    destruct c as [|c].
    + simpl in *. destruct t; now inversion Hrow.
    + specialize (IH (S c)). simpl in Hrow.
      cbn [firstn]. cbn [firstn] in IH.
      destruct t as [|h' t']; [ destruct c; discriminate | ].
      cbn [last]. apply IH; [lia|].
      simpl. rewrite Nat.sub_0_r. exact Hrow.
Qed.

(** X11. If in every iteration at least one of the two displacements is
    zero, nothing is ever accepted and the call returns the initial
    configuration alone: the zero score of the coordinate that did not
    move blocks the other coordinate as well. *)
Theorem do_mcmc_stuck_on_zero_displacement
  (G : globals) (p : energy_fn) (rng : nat -> draw) (steps : nat)
  (images : dataset) (x0 : config) (sigma kT : R) :
  lookup_global "p_em" G = Some p -> (1 <= steps)%nat ->
  (forall i : nat, fst (dx (rng i)) = 0 \/ snd (dx (rng i)) = 0) ->
  do_mcmc G rng steps images x0 sigma kT = inr [x0].
Proof.
  intros HG H Hzero. rewrite (do_mcmc_returns G p HG) by exact H.
  rewrite accepted_trace_zero_displacement; [reflexivity|].
  intros d Hd. apply in_draws in Hd as (i & ->). apply Hzero.
Qed.

Lemma do_mcmc_stuck_on_zero_displacement_witness :
  lookup_global "p_em" (bound_globals energy_em) = Some energy_em /\
  (1 <= 5)%nat /\
  (forall i : nat,
      fst (dx (rng_still i)) = 0 \/ snd (dx (rng_still i)) = 0) /\
  do_mcmc (bound_globals energy_em) rng_still 5 [0; 1] (2, 3) 1 1
  = inr [(2, 3)].
Proof.
  split; [reflexivity|]. split; [lia|]. split; [intros i; now left|].
  apply (do_mcmc_stuck_on_zero_displacement
           (bound_globals energy_em) energy_em rng_still 5 [0; 1] (2, 3) 1 1);
    [reflexivity | lia | intros i; now left].
Defined.

(** X12. After any number [k] of iterations the counter [c] lies between
    1 and [k + 1] and the current configuration is the row
    [samples[c - 1]]; in particular the last entry of the returned
    sequence is the configuration the sampler ended in. *)
Theorem current_config_is_last_sample
  (G : globals) (p : energy_fn) (rng : nat -> draw) (steps : nat)
  (images : dataset) (x0 : config) (sigma kT : R) (k : nat) :
  lookup_global "p_em" G = Some p ->
  (1 <= steps)%nat -> (k <= steps - 1)%nat ->
  exists st : state,
    state_after G rng steps images x0 sigma kT k = inr st /\
    (1 <= st_c st <= S k)%nat /\
    nth_error (st_samples st) (st_c st - 1) = Some (st_x st) /\
    (k = (steps - 1)%nat ->
     exists out : list config,
       do_mcmc G rng steps images x0 sigma kT = inr out /\
       last out x0 = st_x st).
Proof.
  intros HG H Hk.
  assert (Hst : exists st : state,
             state_after G rng steps images x0 sigma kT k = inr st /\
             (1 <= st_c st <= S k)%nat /\
             nth_error (st_samples st) (st_c st - 1) = Some (st_x st)).
  { unfold state_after. rewrite (init_state_ok G p HG images x0 sigma kT steps H).
    cbn [bind fst snd].
    match goal with
    | |- context [mcmc_loop _ _ _ _ ?ds ?st] =>
        destruct (mcmc_loop_spec p images sigma kT ds st)
          as (st' & Hrun & _ & Hc & _ & _);
        [ | pose proof (mcmc_loop_invariant p images sigma kT _
                          (step_keeps_last_row p images sigma kT)
                          ds st st') as Hinv ]
    end.
    { simpl. rewrite draws_length, repeat_length. lia. }
    exists st'. split; [exact Hrun|].
    simpl in Hc. rewrite draws_length in Hc.
    destruct Hinv as [Hc1 Hrow]; [ simpl; split; [lia | reflexivity] | exact Hrun | ].
    repeat split; auto; lia. }
  destruct Hst as (st & Hrun & Hc & Hrow).
  exists st. repeat split; try assumption; try lia.
  intros ->. rewrite do_mcmc_state_after, Hrun. cbn [bind].
  eexists. split; [reflexivity|].
  apply last_firstn_row; [lia | exact Hrow].
Qed.

Lemma current_config_is_last_sample_witness :
  lookup_global "p_em" (bound_globals energy_em) = Some energy_em /\
  (1 <= 3)%nat /\ (2 <= 3 - 1)%nat /\
  exists st : state,
    state_after (bound_globals energy_em) rng_still 3 [0] (0, 0) 1 1 2
    = inr st /\
    (1 <= st_c st <= 3)%nat /\
    nth_error (st_samples st) (st_c st - 1) = Some (st_x st).
Proof.
  split; [reflexivity|]. split; [lia|]. split; [simpl; lia|].
  destruct (current_config_is_last_sample
              (bound_globals energy_em) energy_em rng_still 3 [0] (0, 0) 1 1 2)
    as (st & Hst & Hc & Hrow & _); [reflexivity | lia | simpl; lia | ].
  exists st. repeat split; try assumption; lia.
Defined.

(** X13. Consecutive entries of the returned sequence differ by the
    displacement of one iteration, applied to the first coordinate, the
    second, or both; a coordinate is never changed by anything else. *)
Theorem do_mcmc_entries_chain
  (G : globals) (p : energy_fn) (rng : nat -> draw) (steps : nat)
  (images : dataset) (x0 : config) (sigma kT : R) :
  lookup_global "p_em" G = Some p -> (1 <= steps)%nat ->
  exists rest : list config,
    do_mcmc G rng steps images x0 sigma kT = inr (x0 :: rest) /\
    chain_moved (draws rng (steps - 1)) x0 rest.
Proof.
  intros HG H. eexists. split; [ now apply (do_mcmc_returns G p HG) | ].
  apply accepted_trace_chain.
Qed.

Lemma do_mcmc_entries_chain_witness :
  lookup_global "p_em" (bound_globals energy_em) = Some energy_em /\
  (1 <= 4)%nat /\
  exists rest : list config,
    do_mcmc (bound_globals energy_em) rng_still 4 [0] (0, 0) 1 1
    = inr ((0, 0)%R :: rest) /\
    chain_moved (draws rng_still (4 - 1)) (0, 0) rest.
Proof.
  split; [reflexivity|]. split; [lia|].
  apply (do_mcmc_entries_chain
           (bound_globals energy_em) energy_em rng_still 4 [0] (0, 0) 1 1);
    [reflexivity | lia].
Defined.



(** X15. Requesting one more step keeps the entries already produced and
    appends at most one: the result for [steps] is a prefix of the result
    for [steps + 1] under the same random source. *)
Theorem do_mcmc_one_more_step
  (G : globals) (p : energy_fn) (rng : nat -> draw) (steps : nat)
  (images : dataset) (x0 : config) (sigma kT : R) :
  lookup_global "p_em" G = Some p -> (1 <= steps)%nat ->
  exists out tail : list config,
    do_mcmc G rng steps images x0 sigma kT = inr out /\
    do_mcmc G rng (S steps) images x0 sigma kT = inr (out ++ tail) /\
    (length tail <= 1)%nat.
Proof.
  intros HG H.
  rewrite (do_mcmc_returns G p HG) by exact H.
  rewrite (do_mcmc_returns G p HG) by lia.
  replace (S steps - 1)%nat with (S (steps - 1)) by lia.
  rewrite draws_succ.
  destruct (accepted_trace_app p images sigma kT (draws rng (steps - 1))
              [rng (S (steps - 1))] x0 (p x0 images sigma kT))
    as (x' & e' & ->).
  eexists. eexists. split; [reflexivity|]. split.
  - rewrite app_comm_cons. reflexivity.
  - apply (accepted_trace_length p images sigma kT [rng (S (steps - 1))]).
Qed.

Lemma do_mcmc_one_more_step_witness :
  lookup_global "p_em" (bound_globals energy_em) = Some energy_em /\
  (1 <= 2)%nat /\
  exists out tail : list config,
    do_mcmc (bound_globals energy_em) rng_still 2 [0] (0, 0) 1 1 = inr out /\
    do_mcmc (bound_globals energy_em) rng_still 3 [0] (0, 0) 1 1
    = inr (out ++ tail) /\
    (length tail <= 1)%nat.
Proof.
  split; [reflexivity|]. split; [lia|].
  apply (do_mcmc_one_more_step
           (bound_globals energy_em) energy_em rng_still 2 [0] (0, 0) 1 1);
    [reflexivity | lia].
Defined.

(** ** Data generation *)

Lemma skipn_set_nth {A : Type} (i j : nat) (v : A) (a : list A) :
  (i < j)%nat -> skipn j (set_nth i v a) = skipn j a.
Proof.
  revert i j. induction a as [|h a IH]; intros [|i] [|j] H; simpl;
    try lia; auto.
  apply IH. lia.
Qed.

Lemma randint_nonempty (n raw : nat) :
  (0 < n)%nat -> randint 0 n raw = inr (raw mod n)%nat.
Proof.
  intros H. unfold randint.
  destruct (n <=? 0)%nat eqn:E; [ apply Nat.leb_le in E; lia | ].
  now rewrite Nat.sub_0_r.
Qed.

Lemma array_get_in_range (k : nat) (a : list R) :
  (k < length a)%nat -> array_get k a = inr (nth k a 0).
Proof.
  intros H. unfold array_get.
  now rewrite (nth_error_nth' a 0 H).
Qed.

Lemma normal_nonneg_scale (loc scale z : R) :
  0 <= scale -> normal loc scale z = inr (loc + scale * z).
Proof.
  intros H. unfold normal.
  assert (E : (scale <? 0) = false) by (apply Rltb_false; exact H).
  now rewrite E.
Qed.

(** One iteration, when nothing can go wrong. *)
Lemma gen_loop_cons (rng : nat -> gen_draw) (centers : list R) (sigma : R)
  (i : nat) (idx : list nat) (dataset : list R) :
  centers <> [] -> 0 <= sigma -> (i < length dataset)%nat ->
  gen_loop rng centers sigma (i :: idx) dataset =
  gen_loop rng centers sigma idx
           (set_nth i (gen_value rng centers sigma i) dataset).
Proof.
  intros Hc Hs Hi.
  assert (Hlen : (0 < length centers)%nat)
    by (destruct centers; [contradiction | simpl; lia]).
  cbn [gen_loop].
  rewrite (randint_nonempty _ _ Hlen). cbn [np_bind].
  rewrite array_get_in_range by (apply Nat.mod_upper_bound; lia).
  cbn [np_bind]. rewrite normal_nonneg_scale by exact Hs. cbn [np_bind].
  unfold array_put. apply Nat.ltb_lt in Hi. rewrite Hi. reflexivity.
Qed.

(** The loop over the indices [a, a + n) overwrites exactly these slots. *)
Lemma gen_loop_seq (rng : nat -> gen_draw) (centers : list R) (sigma : R)
  (n : nat) :
  centers <> [] -> 0 <= sigma ->
  forall (a : nat) (dataset : list R),
    (a + n <= length dataset)%nat ->
    gen_loop rng centers sigma (seq a n) dataset =
    inr (firstn a dataset
         ++ map (gen_value rng centers sigma) (seq a n)
         ++ skipn (a + n) dataset).
Proof.
  intros Hc Hs. induction n as [|n IH]; intros a dataset Hlen.
  - simpl. rewrite Nat.add_0_r, firstn_skipn. reflexivity.
  - cbn [seq]. rewrite gen_loop_cons by (auto; lia).
    rewrite IH by (rewrite set_nth_length; lia).
    rewrite firstn_set_nth_snoc by lia.
    rewrite skipn_set_nth by lia.
    cbn [map]. rewrite <- app_assoc. cbn [app].
    replace (S a + n)%nat with (a + S n)%nat by lia. reflexivity.
Qed.

Lemma gen_images_returns
  (rng : nat -> gen_draw) (n_images : nat) (centers : list R) (sigma : R) :
  centers <> [] -> 0 <= sigma ->
  gen_images rng n_images centers sigma
  = inr (map (gen_value rng centers sigma) (seq 0 n_images)).
Proof.
  intros Hc Hs. unfold gen_images.
  rewrite (gen_loop_seq rng centers sigma n_images Hc Hs)
    by (rewrite repeat_length; lia).
  cbn [firstn app Nat.add].
  rewrite skipn_all2 by (rewrite repeat_length; lia).
  now rewrite app_nil_r.
Qed.

(** X16. With at least one center and [sigma >= 0], [gen_images] raises
    nothing and returns [n_images] values; the value at index [i] is the
    center picked by the [i]-th integer draw plus [sigma] times the
    [i]-th normal deviate. *)
Theorem gen_images_values
  (rng : nat -> gen_draw) (n_images : nat) (centers : list R) (sigma : R) :
  centers <> [] -> 0 <= sigma ->
  gen_images rng n_images centers sigma
  = inr (map (gen_value rng centers sigma) (seq 0 n_images)) /\
  length (map (gen_value rng centers sigma) (seq 0 n_images)) = n_images.
Proof.
  intros Hc Hs. split.
  - now apply gen_images_returns.
  - now rewrite length_map, length_seq.
Qed.

Lemma gen_images_values_witness :
  [-2; 2] <> [] /\ 0 <= 2 /\
  gen_images gen_rng_count 3 [-2; 2] 2
  = inr (map (gen_value gen_rng_count [-2; 2] 2) (seq 0 3)) /\
  length (map (gen_value gen_rng_count [-2; 2] 2) (seq 0 3)) = 3%nat.
Proof.
  split; [discriminate|]. split; [lra|].
  apply (gen_images_values gen_rng_count 3 [-2; 2] 2); [discriminate | lra].
Defined.


(** X18. A negative [sigma] makes the first [np.random.normal] call
    raise [ValueError], as soon as one image is requested and a center
    exists. *)
Theorem gen_images_negative_sigma
  (rng : nat -> gen_draw) (n : nat) (centers : list R) (sigma : R) :
  centers <> [] -> sigma < 0 ->
  gen_images rng (S n) centers sigma = inl (ValueError "scale < 0").
Proof.
  intros Hc Hs.
  assert (Hlen : (0 < length centers)%nat)
    by (destruct centers; [contradiction | simpl; lia]).
  unfold gen_images. cbn [seq gen_loop].
  rewrite (randint_nonempty _ _ Hlen). cbn [np_bind].
  rewrite array_get_in_range by (apply Nat.mod_upper_bound; lia).
  cbn [np_bind]. unfold normal.
  assert (E : (sigma <? 0) = true) by (apply Rltb_true; exact Hs).
  rewrite E. reflexivity.
Qed.

Lemma gen_images_negative_sigma_witness :
  [-2; 2] <> [] /\ -1 < 0 /\
  gen_images gen_rng_count 2 [-2; 2] (-1) = inl (ValueError "scale < 0").
Proof.
  split; [discriminate|]. split; [lra|].
  apply (gen_images_negative_sigma gen_rng_count 1 [-2; 2] (-1));
    [discriminate | lra].
Defined.

(** X19. Without noise ([sigma = 0]) every generated value is one of the
    centers. *)
Theorem gen_images_noise_free
  (rng : nat -> gen_draw) (n_images : nat) (centers : list R) :
  centers <> [] ->
  exists out : list R,
    gen_images rng n_images centers 0 = inr out /\
    length out = n_images /\
    Forall (fun v => In v centers) out.
Proof.
  intros Hc.
  pose proof (gen_images_returns rng n_images centers 0 Hc (Rle_refl 0))
    as Hrun.
  eexists. split; [exact Hrun|].
  split; [now rewrite length_map, length_seq|].
  apply Forall_forall. intros v Hv.
  apply in_map_iff in Hv as (i & <- & _).
  unfold gen_value. rewrite Rmult_0_l, Rplus_0_r.
  apply nth_In. apply Nat.mod_upper_bound.
  destruct centers; [contradiction | simpl; lia].
Qed.

Lemma gen_images_noise_free_witness :
  [-2; 2] <> [] /\
  exists out : list R,
    gen_images gen_rng_count 4 [-2; 2] 0 = inr out /\
    length out = 4%nat /\
    Forall (fun v => In v [-2; 2]) out.
Proof.
  split; [discriminate|].
  apply (gen_images_noise_free gen_rng_count 4 [-2; 2]). discriminate.
Defined.

(** ** Free-energy conversion *)

Lemma nanmin_lower (l : list nanfloat) (m : R) :
  nanmin l = Some m -> forall v : R, In (Some v) l -> m <= v.
Proof.
  revert m. induction l as [|[w|] l IH]; intros m Hm v Hv; simpl in *.
  - contradiction.
  - destruct (nanmin l) as [m'|] eqn:E.
    + inversion Hm; subst m. destruct Hv as [Hv | Hv].
      * inversion Hv; subst. apply Rmin_l.
      * eapply Rle_trans; [apply Rmin_r | now apply IH].
    + inversion Hm; subst m. destruct Hv as [Hv | Hv].
      * inversion Hv. lra.
      * exfalso. clear IH. induction l as [|[u|] l IHl]; simpl in *.
        -- contradiction.
        -- destruct (nanmin l); discriminate.
        -- destruct Hv as [Hv | Hv]; [discriminate | now apply IHl].
  - destruct Hv as [Hv | Hv]; [discriminate | now apply IH].
Qed.

Lemma nanmin_attained (l : list nanfloat) (m : R) :
  nanmin l = Some m -> In (Some m) l.
Proof.
  revert m. induction l as [|[w|] l IH]; intros m Hm; simpl in *.
  - discriminate.
  - destruct (nanmin l) as [m'|] eqn:E.
    + inversion Hm. unfold Rmin. destruct (Rle_dec w m').
      * now left.
      * right. now apply IH.
    + inversion Hm. now left.
  - right. now apply IH.
Qed.

Lemma nanmin_exists (l : list nanfloat) (v : R) :
  In (Some v) l -> exists m : R, nanmin l = Some m.
Proof.
  induction l as [|[w|] l IH]; intros Hv; simpl in *.
  - contradiction.
  - destruct (nanmin l); eauto.
  - destruct Hv as [Hv | Hv]; [discriminate | now apply IH].
Qed.

Lemma mask_small_below (v : R) : v < 0.01 -> mask_small v = None.
Proof.
  intros H. unfold mask_small.
  assert (E : (v <? 0.01) = true) by (now apply Rltb_true).
  now rewrite E.
Qed.

Lemma mask_small_above (v : R) : 0.01 <= v -> mask_small v = Some v.
Proof.
  intros H. unfold mask_small.
  assert (E : (v <? 0.01) = false) by (now apply Rltb_false).
  now rewrite E.
Qed.

Section FesFacts.

Variable kT : R.

(** The array after masking and taking logarithms. *)
Local Abbreviation log_stage p := (map (neg_kT_log kT) (map mask_small p)).

(** On a non-empty array the call returns, entry by entry, the masked
    logarithm minus the minimum. *)
Lemma p_to_fes_returns (p grid : list R) :
  p <> [] ->
  p_to_fes p grid kT
  = inr (map (fun a => nan_sub a (nanmin (log_stage p))) (log_stage p)).
Proof.
  intros Hp. unfold p_to_fes. destruct p as [|v p]; [contradiction|].
  reflexivity.
Qed.

Lemma log_stage_nth (p : list R) (i : nat) (v : R) :
  nth_error p i = Some v ->
  nth_error (log_stage p) i = Some (neg_kT_log kT (mask_small v)).
Proof.
  intros H. rewrite !nth_error_map, H. reflexivity.
Qed.

Lemma log_stage_in (p : list R) (v : R) :
  In v p -> 0.01 <= v -> In (Some (- kT * ln v)) (log_stage p).
Proof.
  intros Hin Hv. apply in_map_iff. exists (Some v). split.
  - reflexivity.
  - apply in_map_iff. exists v. split; [now apply mask_small_above | exact Hin].
Qed.

(** Every finite entry of the log stage comes from an input of at least
    0.01. *)
Lemma log_stage_origin (p : list R) (e : R) :
  In (Some e) (log_stage p) ->
  exists v : R, In v p /\ 0.01 <= v /\ e = - kT * ln v.
Proof.
  intros H. apply in_map_iff in H as (a & Ha & Hin).
  apply in_map_iff in Hin as (v & Hv & Hin).
  unfold mask_small in Hv. destruct (v <? 0.01) eqn:E; subst a.
  - discriminate.
  - apply Rltb_false in E. simpl in Ha. inversion Ha.
    exists v. auto.
Qed.

(** The result at an index whose input is at least 0.01. *)
Lemma p_to_fes_finite_entry (p grid : list R) (i : nat) (v : R) :
  nth_error p i = Some v -> 0.01 <= v ->
  exists m : R,
    nanmin (log_stage p) = Some m /\
    m <= - kT * ln v /\
    exists fes : list nanfloat,
      p_to_fes p grid kT = inr fes /\
      nth_error fes i = Some (Some (- kT * ln v - m)).
Proof.
  intros Hi Hv.
  assert (Hp : p <> []) by (intros ->; destruct i; discriminate).
  assert (Hin : In (Some (- kT * ln v)) (log_stage p)).
  { apply log_stage_in; [ now apply nth_error_In with i | exact Hv ]. }
  destruct (nanmin_exists _ _ Hin) as (m & Hm).
  exists m. split; [exact Hm|]. split; [now apply (nanmin_lower _ m Hm)|].
  eexists. split; [now apply p_to_fes_returns|].
  rewrite nth_error_map, (log_stage_nth p i v Hi), Hm.
  rewrite mask_small_above by exact Hv. reflexivity.
Qed.

End FesFacts.

(** X20. [p_to_fes] raises [ValueError] on an empty array (from
    [np.nanmin]) and otherwise returns an array as long as its input. *)
Theorem p_to_fes_shape (v : R) (p grid : list R) (kT : R) :
  p_to_fes [] grid kT
  = inl (ValueError
           "zero-size array to reduction operation fmin which has no identity")
  /\
  exists fes : list nanfloat,
    p_to_fes (v :: p) grid kT = inr fes /\
    length fes = length (v :: p).
Proof.
  split; [reflexivity|].
  eexists. split; [ apply p_to_fes_returns; discriminate | ].
  now rewrite !length_map.
Qed.

(** X21. An input entry below 0.01 becomes [nan]; an entry of at least
    0.01 becomes a finite, non-negative value. *)
Theorem p_to_fes_entries
  (p grid : list R) (kT : R) (i : nat) (v : R) :
  nth_error p i = Some v ->
  exists fes : list nanfloat,
    p_to_fes p grid kT = inr fes /\
    (v < 0.01 -> nth_error fes i = Some None) /\
    (0.01 <= v ->
     exists e : R, nth_error fes i = Some (Some e) /\ 0 <= e).
Proof.
  intros Hi.
  assert (Hp : p <> []) by (intros ->; destruct i; discriminate).
  eexists. split; [ now apply p_to_fes_returns | ]. split.
  - intros Hv.
    rewrite nth_error_map, (log_stage_nth kT p i v Hi).
    now rewrite mask_small_below.
  - intros Hv.
    destruct (p_to_fes_finite_entry kT p grid i v Hi Hv)
      as (m & Hm & Hle & fes & Hrun & Hnth).
    rewrite (p_to_fes_returns kT p grid Hp) in Hrun.
    inversion Hrun as [Hfes]. rewrite Hfes.
    exists (- kT * ln v - m). split; [exact Hnth | lra].
Qed.

Lemma p_to_fes_entries_witness :
  nth_error [0.5; 0.001] 0 = Some 0.5 /\
  exists fes : list nanfloat,
    p_to_fes [0.5; 0.001] [] 1 = inr fes /\
    (0.5 < 0.01 -> nth_error fes 0 = Some None) /\
    (0.01 <= 0.5 ->
     exists e : R, nth_error fes 0 = Some (Some e) /\ 0 <= e).
Proof.
  split; [reflexivity|].
  apply (p_to_fes_entries [0.5; 0.001] [] 1 0 0.5). reflexivity.
Defined.

(** X22. As soon as one input entry is at least 0.01, the value 0 occurs
    in the result: the curve is shifted so that its minimum is 0. *)
Theorem p_to_fes_zero_attained
  (p grid : list R) (kT v : R) :
  In v p -> 0.01 <= v ->
  exists fes : list nanfloat,
    p_to_fes p grid kT = inr fes /\ In (Some 0) fes.
Proof.
  intros Hin Hv.
  assert (Hp : p <> []) by (intros ->; contradiction).
  eexists. split; [ now apply p_to_fes_returns | ].
  destruct (nanmin_exists _ _ (log_stage_in kT p v Hin Hv)) as (m & Hm).
  rewrite Hm.
  pose proof (nanmin_attained _ _ Hm) as Hat.
  apply in_map_iff. exists (Some m). split; [ | exact Hat ].
  simpl. f_equal. lra.
Qed.

Lemma p_to_fes_zero_attained_witness :
  In 0.5 [0.001; 0.5] /\ 0.01 <= 0.5 /\
  exists fes : list nanfloat,
    p_to_fes [0.001; 0.5] [] 1 = inr fes /\ In (Some 0) fes.
Proof.
  split; [right; now left|]. split; [lra|].
  apply (p_to_fes_zero_attained [0.001; 0.5] [] 1 0.5);
    [right; now left | lra].
Defined.



(** X24. For [kT > 0] the largest input entry, when it is at least 0.01,
    is mapped to 0. *)
Theorem p_to_fes_max_to_zero
  (p grid : list R) (kT : R) (i : nat) (a : R) :
  0 < kT -> nth_error p i = Some a -> 0.01 <= a ->
  (forall w : R, In w p -> w <= a) ->
  exists fes : list nanfloat,
    p_to_fes p grid kT = inr fes /\ nth_error fes i = Some (Some 0).
Proof.
  intros Hk Hi Ha Hmax.
  destruct (p_to_fes_finite_entry kT p grid i a Hi Ha)
    as (m & Hm & Hle & fes & Hrun & Hnth).
  exists fes. split; [exact Hrun|]. rewrite Hnth. do 2 f_equal.
  destruct (log_stage_origin kT p m (nanmin_attained _ _ Hm))
    as (w & Hw & Hw01 & ->).
  pose proof (Hmax w Hw) as Hwa.
  assert (Hln : ln w <= ln a) by (apply ln_le_mono; lra).
  nra.
Qed.

Lemma p_to_fes_max_to_zero_witness :
  0 < 1 /\ nth_error [0.25; 0.5] 1 = Some 0.5 /\ 0.01 <= 0.5 /\
  (forall w : R, In w [0.25; 0.5] -> w <= 0.5) /\
  exists fes : list nanfloat,
    p_to_fes [0.25; 0.5] [] 1 = inr fes /\ nth_error fes 1 = Some (Some 0).
Proof.
  assert (Hmax : forall w : R, In w [0.25; 0.5] -> w <= 0.5).
  { intros w [<- | [<- | []]]; lra. }
  split; [lra|]. split; [reflexivity|]. split; [lra|]. split; [exact Hmax|].
  apply (p_to_fes_max_to_zero [0.25; 0.5] [] 1 1 0.5);
    [lra | reflexivity | lra | exact Hmax].
Defined.

(** X25. When every input entry is below 0.01 the call still returns:
    the result is [nan] everywhere. *)
Theorem p_to_fes_all_masked (p grid : list R) (kT : R) :
  p <> [] -> Forall (fun v => v < 0.01) p ->
  p_to_fes p grid kT = inr (repeat None (length p)).
Proof.
  intros Hp Hall. rewrite (p_to_fes_returns kT p grid Hp). f_equal.
  clear Hp. generalize (nanmin (map (neg_kT_log kT) (map mask_small p))).
  intros m. induction Hall as [|v p Hv _ IH]; [reflexivity|].
  cbn [map length repeat]. rewrite (mask_small_below v Hv), IH.
  reflexivity.
Qed.

Lemma p_to_fes_all_masked_witness :
  [0.001; 0] <> [] /\ Forall (fun v => v < 0.01) [0.001; 0] /\
  p_to_fes [0.001; 0] [] 1 = inr (repeat None (length [0.001; 0])).
Proof.
  assert (H : Forall (fun v => v < 0.01) [0.001; 0]).
  { repeat constructor; lra. }
  split; [discriminate|]. split; [exact H|].
  apply (p_to_fes_all_masked [0.001; 0] [] 1); [discriminate | exact H].
Defined.
